(** * Lazy string concatenation (cpp_recursive_types/lazy_concat.cpp)

    A shallow embedding of the class template [lazy_concatenator] and a
    verification of its size query, its buffer fill, its append operator,
    its conversion to [std::string] and its assignment operator.

    Conventions.
    - [std::string] is a list of bytes; [std::string::size()] is the length
      of that list, a [size_t].
    - [int] is a 32-bit two's complement integer and [size_t] a 64-bit
      unsigned one.  Conversions between them reduce modulo [2^32] and
      [2^64] (the rule of C++20, and what compilers did before it); they
      are written out with [to_int] and [to_size_t].  A [std::string]
      holds fewer than [2^63] bytes, so its size is unchanged when an
      iterator is moved back by it.
    - A destination buffer is a list of bytes and an iterator into it is
      the offset of the byte it points to.  A write through an offset that
      is not inside the buffer has no defined behaviour and is reported as
      [None].
    - Member functions declared [const] are functions of the receiver. *)

From Stdlib Require Import ZArith Lia.
From Stdlib Require Import Strings.Byte.
From Stdlib Require Strings.String.
Import String.StringSyntax.
From stdpp Require Import base list.

Local Open Scope string_scope.
Local Open Scope Z_scope.

Module LazyConcat.

(** ** Machine integers *)

Definition INT_MIN : Z := -2147483648.
Definition INT_MAX : Z := 2147483647.

(** Conversion of an integer value to [size_t]. *)
Definition to_size_t (z : Z) : Z := z mod 2 ^ 64.

(** Conversion of an integer value to [int]. *)
Definition to_int (z : Z) : Z := (z + 2 ^ 31) mod 2 ^ 32 - 2 ^ 31.

(** ** Strings *)

Definition std_string : Type := list byte.

Definition string_size (s : std_string) : Z := Z.of_nat (length s).

(** ** The chain

    [Base] is the specialisation [lazy_concatenator<>]; [General] is
    [lazy_concatenator<Head, Tail...>] with its two data members.  Every
    chain built by [operator+] has [Head = std::string]. *)

Inductive lazy_concatenator : Type :=
| Base
| General (m_head : std_string) (m_tail : lazy_concatenator).

(** The number of template arguments: the shape of a chain. *)
Fixpoint shape (c : lazy_concatenator) : nat :=
  match c with
  | Base => 0%nat
  | General _ m_tail => S (shape m_tail)
  end.

(** [int size() const].  The sum is computed in [size_t], the tail's [int]
    being converted first, and the result is converted to [int]. *)
Fixpoint size (this : lazy_concatenator) : Z :=
  match this with
  | Base => 0
  | General m_head m_tail =>
      to_int (to_size_t (string_size m_head + to_size_t (size m_tail)))
  end.

(** ** Destination buffers *)

(** [*it = b] for the iterator at offset [it]. *)
Definition store (buf : list byte) (it : Z) (b : byte) : option (list byte) :=
  if bool_decide (0 <= it < string_size buf)
  then Some (<[Z.to_nat it := b]> buf)
  else None.

(** [std::copy(src.begin(), src.end(), d_first)]: one store per byte, the
    destination iterator advancing by one. *)
Fixpoint std_copy (src : std_string) (buf : list byte) (d_first : Z)
  : option (list byte) :=
  match src with
  | [] => Some buf
  | b :: rest =>
      match store buf d_first b with
      | Some buf' => std_copy rest buf' (d_first + 1)
      | None => None
      end
  end.

(** [void save(OutputIterator end) const]. *)
Fixpoint save (this : lazy_concatenator) (buf : list byte) (end_ : Z)
  : option (list byte) :=
  match this with
  | Base => Some buf
  | General m_head m_tail =>
      let begin := end_ - string_size m_head in
      match std_copy m_head buf begin with
      | Some buf' => save m_tail buf' begin
      | None => None
      end
  end.

(** ** Append *)

(** [operator+(const std::string &other)], of both specialisations:
    [lazy_concatenator<std::string, ...>(other, *this)]. *)
Definition operator_plus (this : lazy_concatenator) (other : std_string)
  : lazy_concatenator :=
  General other this.

(** ** Results of calls that can fail *)

Inductive outcome (A : Type) : Type :=
| Returned (a : A)
| LengthError   (* [std::length_error] thrown by the string constructor *)
| Undefined     (* a write outside the destination buffer *)
| IllFormed.    (* the call names a member that is not declared *)

Arguments Returned {A} a.
Arguments LengthError {A}.
Arguments Undefined {A}.
Arguments IllFormed {A}.

(** ** Conversion to [std::string]

    Only the general case declares [operator std::string() const]:
<<
    std::string result(size(), '\0');
    save(result.end());
    return result;
>>
    The string constructor takes a [size_t] count; a negative [size()]
    converts to a count of at least [2^64 - 2^31], more than
    [max_size()], and the constructor throws. *)
Definition operator_std_string (this : lazy_concatenator)
  : outcome std_string :=
  match this with
  | Base => IllFormed
  | General _ _ =>
      let n := size this in
      if bool_decide (n < 0) then LengthError
      else
        let result := replicate (Z.to_nat n) x00 in
        match save this result (string_size result) with
        | Some filled => Returned filled
        | None => Undefined
        end
  end.

(** ** Assignment

    The data members of a chain, by name. *)
Inductive member_value : Type :=
| head_value (s : std_string)
| tail_value (c : lazy_concatenator).

Definition member (c : lazy_concatenator) (name : String.string)
  : option member_value :=
  match c with
  | Base => None
  | General m_head m_tail =>
      if String.eqb name "m_head" then Some (head_value m_head)
      else if String.eqb name "m_tail" then Some (tail_value m_tail)
      else None
  end.

(** [operator=(const lazy_concatenator &other)] is declared for two chains
    of one type.  The general case is
<<
    m_head = other.m_head;
    m_tail = other.tail;
>>
    and the base case has the implicit assignment of an empty class. *)
Definition operator_assign (this other : lazy_concatenator)
  : outcome lazy_concatenator :=
  if negb (Nat.eqb (shape this) (shape other)) then IllFormed
  else
    match this with
    | Base => Returned Base
    | General _ _ =>
        match member other "m_head", member other "tail" with
        | Some (head_value h), Some (tail_value t) => Returned (General h t)
        | _, _ => IllFormed
        end
    end.

(** ** Specification-side definitions *)

(** The sum of the lengths of the fragments reachable through the tail
    links, as a mathematical integer. *)
Fixpoint sum_lengths (c : lazy_concatenator) : Z :=
  match c with
  | Base => 0
  | General m_head m_tail => string_size m_head + sum_lengths m_tail
  end.

(** The fragments of a chain, oldest first. *)
Fixpoint fragments (c : lazy_concatenator) : list std_string :=
  match c with
  | Base => []
  | General m_head m_tail => fragments m_tail ++ [m_head]
  end.

(** The bytes of a chain in logical order. *)
Definition content (c : lazy_concatenator) : std_string :=
  concat (fragments c).

(** The chain obtained by appending [fs], in order, to the chain [c]. *)
Definition append_all (c : lazy_concatenator) (fs : list std_string)
  : lazy_concatenator :=
  fold_left operator_plus fs c.

Definition str (s : String.string) : std_string := String.list_byte_of_string s.

Definition hello_world : lazy_concatenator :=
  append_all Base [str "Hello"; str " "; str "World"].


(** The chain reached by following [k] tail links. *)
Fixpoint tail_at (k : nat) (c : lazy_concatenator) : option lazy_concatenator :=
  match k with
  | O => Some c
  | S k' =>
      match c with
      | Base => None
      | General _ m_tail => tail_at k' m_tail
      end
  end.

(** A call of [operator+]: the receiver after the call and the chain
    returned.  The general case is [const]; the base case has no data
    member to change. *)
Definition call_operator_plus (this : lazy_concatenator) (other : std_string)
  : lazy_concatenator * lazy_concatenator :=
  (this, operator_plus this other).



(** ** Long fragments

    Fragments of [2^31] and [2^32] bytes, and a buffer of [2^32] bytes. *)

Definition fragment_2_31 : std_string :=
  replicate (Z.to_nat 2147483648) "a"%byte.

Definition fragment_2_32 : std_string :=
  replicate (Z.to_nat 4294967296) "a"%byte.

Definition buffer_2_32 : list byte :=
  replicate (Z.to_nat 4294967296) "."%byte.

(** ** Conversions *)

Lemma to_int_range (z : Z) : INT_MIN <= to_int z <= INT_MAX.
Proof. unfold to_int, INT_MIN, INT_MAX. Z.div_mod_to_equations. lia. Qed.

Lemma to_int_small (z : Z) : INT_MIN <= z <= INT_MAX -> to_int z = z.
Proof.
  unfold to_int, INT_MIN, INT_MAX. intros Hz.
  rewrite Z.mod_small by lia. lia.
Qed.

Lemma to_int_to_size_t (z : Z) : to_int (to_size_t z) = to_int z.
Proof. unfold to_int, to_size_t. Z.div_mod_to_equations. lia. Qed.

Lemma to_int_add_to_size_t (a b : Z) :
  to_int (a + to_size_t b) = to_int (a + b).
Proof. unfold to_int, to_size_t. Z.div_mod_to_equations. lia. Qed.

Lemma to_int_add_to_int (a b : Z) : to_int (a + to_int b) = to_int (a + b).
Proof. unfold to_int. Z.div_mod_to_equations. lia. Qed.

(** ** The size query *)

Lemma size_General (h : std_string) (t : lazy_concatenator) :
  size (General h t) = to_int (string_size h + size t).
Proof.
  change (size (General h t))
    with (to_int (to_size_t (string_size h + to_size_t (size t)))).
  now rewrite to_int_to_size_t, to_int_add_to_size_t.
Qed.

Lemma size_to_int (c : lazy_concatenator) : size c = to_int (sum_lengths c).
Proof.
  induction c as [|h t IH].
  - reflexivity.
  - rewrite size_General, IH. apply to_int_add_to_int.
Qed.

Lemma string_size_nonneg (s : std_string) : 0 <= string_size s.
Proof. unfold string_size. lia. Qed.

Lemma sum_lengths_nonneg (c : lazy_concatenator) : 0 <= sum_lengths c.
Proof.
  induction c as [|h t IH]; simpl; [lia|].
  pose proof (string_size_nonneg h). lia.
Qed.

(** ** Writing into a buffer *)

Lemma store_Some (buf : list byte) (it : Z) (b : byte) :
  0 <= it < string_size buf ->
  store buf it b = Some (<[Z.to_nat it := b]> buf).
Proof. intros H. unfold store. now rewrite bool_decide_eq_true_2. Qed.

(** A copy into a range inside the buffer replaces exactly that range. *)
Lemma std_copy_Some (src : std_string) :
  forall (buf : list byte) (d : Z),
    0 <= d -> d + string_size src <= string_size buf ->
    std_copy src buf d =
      Some (take (Z.to_nat d) buf ++ src
              ++ drop (Z.to_nat (d + string_size src)) buf).
Proof.
  induction src as [|b rest IH]; intros buf d Hd Hfit.
  - simpl. unfold string_size. simpl. rewrite Z.add_0_r.
    now rewrite take_drop.
  - unfold string_size in *. simpl length in *.
    simpl std_copy. rewrite store_Some by (unfold string_size; lia).
    rewrite IH; rewrite ?length_insert; try lia.
    f_equal.
    replace (Z.to_nat (d + 1)) with (S (Z.to_nat d)) by lia.
    replace (Z.to_nat (d + 1 + Z.of_nat (length rest)))
      with (Z.to_nat (d + Z.of_nat (S (length rest)))) by lia.
    rewrite drop_insert_lt by lia.
    rewrite (take_S_r _ _ b).
    + rewrite take_insert_ge by lia. now rewrite <- app_assoc.
    + apply list_lookup_insert_eq. lia.
Qed.

Lemma content_General (h : std_string) (t : lazy_concatenator) :
  content (General h t) = content t ++ h.
Proof.
  unfold content. simpl. rewrite concat_app. simpl. now rewrite app_nil_r.
Qed.

Lemma string_size_app (s1 s2 : std_string) :
  string_size (s1 ++ s2) = string_size s1 + string_size s2.
Proof. unfold string_size. rewrite length_app. lia. Qed.

Lemma string_size_content (c : lazy_concatenator) :
  string_size (content c) = sum_lengths c.
Proof.
  induction c as [|h t IH].
  - reflexivity.
  - rewrite content_General, string_size_app, IH. simpl. lia.
Qed.

(** [save] into a range inside the buffer replaces exactly the
    [sum_lengths c] bytes before [e] by the content of the chain. *)
Lemma save_Some (c : lazy_concatenator) :
  forall (buf : list byte) (e : Z),
    0 <= e - sum_lengths c -> e <= string_size buf ->
    save c buf e =
      Some (take (Z.to_nat (e - sum_lengths c)) buf ++ content c
              ++ drop (Z.to_nat e) buf).
Proof.
  induction c as [|h t IH]; intros buf e Hlo Hhi.
  - simpl. rewrite Z.sub_0_r. now rewrite take_drop.
  - pose proof (string_size_nonneg h) as Hh.
    pose proof (sum_lengths_nonneg t) as Ht.
    simpl sum_lengths in *. simpl save.
    rewrite std_copy_Some by lia.
    replace (e - string_size h + string_size h) with e by lia.
    assert (Hlen : length (take (Z.to_nat (e - string_size h)) buf)
                   = Z.to_nat (e - string_size h)).
    { apply length_take_le. unfold string_size in *. lia. }
    rewrite IH.
    + f_equal. rewrite content_General.
      rewrite take_app_le by lia.
      rewrite take_take.
      rewrite drop_app_length' by (symmetry; exact Hlen).
      replace (Z.to_nat (e - string_size h - sum_lengths t)
                 `min` Z.to_nat (e - string_size h))%nat
        with (Z.to_nat (e - (string_size h + sum_lengths t))) by lia.
      now rewrite <- app_assoc.
    + lia.
    + rewrite !string_size_app.
      unfold string_size in *. rewrite Hlen, length_drop. lia.
Qed.

(** ** Size of a chain with one long fragment *)

Lemma size_single_replicate (n : nat) (b : byte) :
  size (General (replicate n b) Base) = to_int (Z.of_nat n).
Proof.
  rewrite size_General. unfold string_size. rewrite length_replicate.
  simpl size. now rewrite Z.add_0_r.
Qed.

Lemma size_fragment_2_31 : size (General fragment_2_31 Base) = INT_MIN.
Proof.
  unfold fragment_2_31. rewrite size_single_replicate.
  rewrite Z2Nat.id by lia. reflexivity.
Qed.

Lemma size_fragment_2_32 : size (General fragment_2_32 Base) = 0.
Proof.
  unfold fragment_2_32. rewrite size_single_replicate.
  rewrite Z2Nat.id by lia. reflexivity.
Qed.

Lemma string_size_fragment_2_31 : string_size fragment_2_31 = 2147483648.
Proof.
  unfold fragment_2_31, string_size. rewrite length_replicate. lia.
Qed.

(** ** C2: the size invariant *)

(** C2, as stated, fails: the chain holding one fragment of [2^31] bytes
    reports [size() = -2^31], not the [2^31] bytes it holds. *)
Lemma size_sum_counterexample :
  size (General fragment_2_31 Base) <> sum_lengths (General fragment_2_31 Base).
Proof.
  rewrite size_fragment_2_31. simpl sum_lengths.
  rewrite string_size_fragment_2_31. unfold INT_MIN. lia.
Qed.

(** C2 (amended): for every chain whose fragments hold at most [INT_MAX]
    bytes in total, [size()] is the sum of the byte lengths of the
    fragments reachable through the tail links. *)
Theorem size_sum_lengths (c : lazy_concatenator) :
  sum_lengths c <= INT_MAX -> size c = sum_lengths c.
Proof.
  intros Hmax. rewrite size_to_int. apply to_int_small.
  pose proof (sum_lengths_nonneg c). unfold INT_MIN. lia.
Qed.

Lemma size_sum_lengths_witness :
  sum_lengths hello_world <= INT_MAX /\ size hello_world = sum_lengths hello_world.
Proof.
  assert (H : sum_lengths hello_world <= INT_MAX) by (vm_compute; discriminate).
  split; [exact H | exact (size_sum_lengths hello_world H)].
Defined.

(** ** C3: size additivity *)

(** C3, as stated, fails: appending a fragment of [2^31] bytes to the
    empty chain gives [size() = -2^31], while [0 + 2^31 = 2^31]. *)
Lemma size_additive_counterexample :
  size (operator_plus Base fragment_2_31)
  <> size Base + string_size fragment_2_31.
Proof.
  unfold operator_plus. rewrite size_fragment_2_31.
  rewrite string_size_fragment_2_31. simpl size. unfold INT_MIN. lia.
Qed.

(** C3 (amended): for every chain [C] and fragment [f] with
    [C.size() + f.length() <= INT_MAX],
    [(C + f).size() = C.size() + f.length()]. *)
Theorem size_additive (c : lazy_concatenator) (f : std_string) :
  size c + string_size f <= INT_MAX ->
  size (operator_plus c f) = size c + string_size f.
Proof.
  intros Hmax. unfold operator_plus. rewrite size_General.
  rewrite to_int_small; [lia|].
  pose proof (string_size_nonneg f).
  assert (Hc : INT_MIN <= size c <= INT_MAX).
  { rewrite size_to_int. apply to_int_range. }
  lia.
Qed.

Lemma size_additive_witness :
  size hello_world + string_size (str "!") <= INT_MAX /\
  size (operator_plus hello_world (str "!"))
  = size hello_world + string_size (str "!").
Proof.
  assert (H : size hello_world + string_size (str "!") <= INT_MAX)
    by (vm_compute; discriminate).
  split; [exact H | exact (size_additive hello_world (str "!") H)].
Defined.

(** ** C8: sign of the size *)

(** C8, as stated, fails: the chain holding one fragment of [2^31] bytes
    has a negative [size()]. *)
Lemma size_nonneg_counterexample : ~ 0 <= size (General fragment_2_31 Base).
Proof. rewrite size_fragment_2_31. unfold INT_MIN. lia. Qed.

(** C8 (amended): for every chain whose fragments hold at most [INT_MAX]
    bytes in total, [size()] is non-negative. *)
Theorem size_nonneg (c : lazy_concatenator) :
  sum_lengths c <= INT_MAX -> 0 <= size c.
Proof.
  intros Hmax. rewrite size_to_int, to_int_small.
  - apply sum_lengths_nonneg.
  - pose proof (sum_lengths_nonneg c). unfold INT_MIN. lia.
Qed.

Lemma size_nonneg_witness :
  sum_lengths hello_world <= INT_MAX /\ 0 <= size hello_world.
Proof.
  assert (H : sum_lengths hello_world <= INT_MAX) by (vm_compute; discriminate).
  split; [exact H | exact (size_nonneg hello_world H)].
Defined.

(** ** Conversion to a string *)

Lemma fragments_append_all (fs : list std_string) :
  forall c : lazy_concatenator,
    fragments (append_all c fs) = fragments c ++ fs.
Proof.
  unfold append_all.
  induction fs as [|f fs IH]; intros c; simpl.
  - now rewrite app_nil_r.
  - rewrite IH. simpl. now rewrite <- app_assoc.
Qed.

Lemma content_append_all (fs : list std_string) :
  content (append_all Base fs) = concat fs.
Proof. unfold content. now rewrite fragments_append_all. Qed.

(** Within the range of [int], the conversion returns the content. *)
Lemma operator_std_string_Returned (h : std_string) (t : lazy_concatenator) :
  sum_lengths (General h t) <= INT_MAX ->
  operator_std_string (General h t) = Returned (content (General h t)).
Proof.
  intros Hmax. set (c := General h t) in *.
  pose proof (sum_lengths_nonneg c) as Hnn.
  assert (Hsize : size c = sum_lengths c).
  { rewrite size_to_int. apply to_int_small. unfold INT_MIN. lia. }
  unfold operator_std_string. fold c. cbv zeta. rewrite Hsize.
  rewrite bool_decide_eq_false_2 by lia.
  assert (Hlen : string_size (replicate (Z.to_nat (sum_lengths c)) x00)
                 = sum_lengths c).
  { unfold string_size. rewrite length_replicate. lia. }
  rewrite Hlen, save_Some by lia.
  rewrite Z.sub_diag. simpl take.
  rewrite drop_ge by (rewrite length_replicate; lia).
  now rewrite app_nil_r.
Qed.

(** A negative [size()] makes the string constructor throw. *)
Lemma operator_std_string_LengthError (h : std_string) (t : lazy_concatenator) :
  size (General h t) < 0 ->
  operator_std_string (General h t) = LengthError.
Proof.
  intros Hneg. unfold operator_std_string. cbv zeta.
  now rewrite bool_decide_eq_true_2.
Qed.

(** ** C1: materialisation *)

(** C1, as stated, fails: for the one-fragment sequence holding [2^31]
    bytes the conversion throws instead of returning the fragment. *)
Lemma materialization_counterexample :
  operator_std_string (append_all Base [fragment_2_31])
  <> Returned (concat [fragment_2_31]).
Proof.
  change (append_all Base [fragment_2_31]) with (General fragment_2_31 Base).
  rewrite operator_std_string_LengthError; [discriminate|].
  rewrite size_fragment_2_31. unfold INT_MIN. lia.
Qed.

(** C1 (amended): for every non-empty sequence of fragments [f1, ..., fn]
    holding at most [INT_MAX] bytes in total, appended in order to the
    empty chain, the conversion to a string returns [f1 ++ ... ++ fn] and
    [size()] is its length. *)
Theorem materialization_correct (f : std_string) (fs : list std_string) :
  string_size (concat (f :: fs)) <= INT_MAX ->
  operator_std_string (append_all Base (f :: fs)) = Returned (concat (f :: fs))
  /\ size (append_all Base (f :: fs)) = string_size (concat (f :: fs)).
Proof.
  intros Hmax.
  pose proof (content_append_all (f :: fs)) as Hcontent.
  pose proof (string_size_content (append_all Base (f :: fs))) as Hsum.
  rewrite Hcontent in Hsum.
  pose proof (fragments_append_all (f :: fs) Base) as Hfrags.
  destruct (append_all Base (f :: fs)) as [|h t] eqn:Hc.
  - discriminate Hfrags.
  - split.
    + rewrite operator_std_string_Returned by lia. now rewrite Hcontent.
    + rewrite size_to_int, to_int_small; [lia|].
      pose proof (sum_lengths_nonneg (General h t)). unfold INT_MIN. lia.
Qed.

(** The scenario of the specification: "Hello", " ", "World". *)
Lemma materialization_correct_witness :
  string_size (concat [str "Hello"; str " "; str "World"]) <= INT_MAX /\
  operator_std_string hello_world = Returned (str "Hello World") /\
  size hello_world = 11.
Proof.
  assert (H : string_size (concat [str "Hello"; str " "; str "World"])
              <= INT_MAX) by (vm_compute; discriminate).
  split; [exact H|].
  exact (materialization_correct (str "Hello") [str " "; str "World"] H).
Defined.

(** ** C5: the terminal chain *)

(** C5, as stated, fails in its last part: the base case declares no
    conversion to a string, so the empty chain has no materialised
    string. *)
Lemma terminal_counterexample : operator_std_string Base <> Returned [].
Proof. discriminate. Qed.

(** C5 (amended): the terminal chain's [size()] is 0 and its [save] leaves
    every buffer as it is, for every iterator; the terminal chain declares
    no conversion to a string. *)
Theorem terminal_chain :
  size Base = 0
  /\ (forall (buf : list byte) (e : Z), save Base buf e = Some buf)
  /\ operator_std_string Base = IllFormed.
Proof. repeat split. Qed.

(** ** C6: the fill algorithm *)

(** C6: [save(e)] on a chain with head [h] and tail [t] copies [h] to
    [begin = e - h.size()] and then runs [t.save(begin)] on the buffer so
    obtained.  When the [h.size()] and tail bytes before [e] lie inside
    the buffer, the copy puts [h] into [[begin, e)], leaving the rest as it
    was, and the recursive call puts the content of the tail immediately
    before it. *)
Theorem save_General (h : std_string) (t : lazy_concatenator)
    (buf : list byte) (e : Z) :
  let begin := e - string_size h in
  save (General h t) buf e
  = (std_copy h buf begin ≫= fun buf1 => save t buf1 begin)
  /\ (0 <= begin - sum_lengths t -> e <= string_size buf ->
      let buf1 := take (Z.to_nat begin) buf ++ h ++ drop (Z.to_nat e) buf in
      std_copy h buf begin = Some buf1
      /\ save t buf1 begin
         = Some (take (Z.to_nat (begin - sum_lengths t)) buf
                   ++ content t ++ h ++ drop (Z.to_nat e) buf)
      /\ save (General h t) buf e = save t buf1 begin).
Proof.
  intros begin. split; [reflexivity|].
  intros Hlo Hhi buf1.
  pose proof (string_size_nonneg h) as Hh.
  pose proof (sum_lengths_nonneg t) as Ht.
  assert (Hcopy : std_copy h buf begin = Some buf1).
  { subst buf1 begin. rewrite std_copy_Some by lia.
    now replace (e - string_size h + string_size h) with e by lia. }
  assert (Hlen : length (take (Z.to_nat begin) buf) = Z.to_nat begin).
  { apply length_take_le. unfold string_size in *. lia. }
  split; [exact Hcopy|]. split.
  - rewrite save_Some.
    + f_equal. subst buf1.
      rewrite take_app_le by lia.
      rewrite take_take.
      rewrite drop_app_length' by (symmetry; exact Hlen).
      now replace (Z.to_nat (begin - sum_lengths t) `min` Z.to_nat begin)%nat
        with (Z.to_nat (begin - sum_lengths t)) by lia.
    + lia.
    + subst buf1. rewrite !string_size_app.
      unfold string_size in *. rewrite Hlen, length_drop. lia.
  - simpl save. fold begin. now rewrite Hcopy.
Qed.

Lemma save_General_witness :
  let buf := replicate 7 x2e in
  0 <= 6 - string_size (str "cd") - sum_lengths (General (str "ab") Base)
  /\ 6 <= string_size buf
  /\ std_copy (str "cd") buf 4 = Some (str "....cd.")
  /\ save (General (str "ab") Base) (str "....cd.") 4 = Some (str "..abcd.")
  /\ save (General (str "cd") (General (str "ab") Base)) buf 6
     = Some (str "..abcd.").
Proof.
  intros buf.
  assert (Hlo : 0 <= 6 - string_size (str "cd")
                     - sum_lengths (General (str "ab") Base))
    by (vm_compute; discriminate).
  assert (Hhi : 6 <= string_size buf) by (vm_compute; discriminate).
  split; [exact Hlo|]. split; [exact Hhi|].
  destruct (proj2 (save_General (str "cd") (General (str "ab") Base) buf 6)
              Hlo Hhi) as (Hcopy & Htail & Hsave).
  split; [exact Hcopy|]. split; [exact Htail|].
  exact (eq_trans Hsave Htail).
Defined.

(** ** C10: the frame of [save] *)

Lemma save_frame_lookup (c : lazy_concatenator) (buf buf' : list byte) (e : Z) :
  0 <= e - sum_lengths c -> e <= string_size buf ->
  save c buf e = Some buf' ->
  length buf' = length buf
  /\ forall i : nat,
       Z.of_nat i < e - sum_lengths c \/ e <= Z.of_nat i ->
       buf' !! i = buf !! i.
Proof.
  intros Hlo Hhi Hsave.
  rewrite save_Some in Hsave by assumption.
  injection Hsave as <-.
  pose proof (sum_lengths_nonneg c) as Hc.
  pose proof (string_size_content c) as Hcont.
  unfold string_size in *.
  assert (Hlen : length (take (Z.to_nat (e - sum_lengths c)) buf)
                 = Z.to_nat (e - sum_lengths c)).
  { apply length_take_le. lia. }
  split.
  - rewrite !length_app, Hlen, length_drop. lia.
  - intros i [Hi|Hi].
    + rewrite lookup_app_l by lia. apply lookup_take_lt. lia.
    + rewrite lookup_app_r by lia.
      rewrite lookup_app_r by lia.
      rewrite lookup_drop. f_equal. lia.
Qed.

(** A one-fragment chain saved over a buffer of the fragment's length
    replaces the whole buffer. *)
Lemma save_single_replicate (n : nat) (e : Z) (a b : byte) :
  e = Z.of_nat n ->
  save (General (replicate n a) Base) (replicate n b) e = Some (replicate n a).
Proof.
  intros ->.
  assert (Hsum : sum_lengths (General (replicate n a) Base) = Z.of_nat n).
  { simpl. unfold string_size. rewrite length_replicate. lia. }
  rewrite save_Some.
  - rewrite Hsum, Z.sub_diag, content_General, Nat2Z.id.
    rewrite drop_ge by (rewrite length_replicate; lia).
    simpl. now rewrite app_nil_r.
  - lia.
  - unfold string_size. rewrite length_replicate. lia.
Qed.

(** C10, as stated, fails: a chain holding one fragment of [2^32] bytes
    has [size() = 0], so [[e - size(), e)] is empty and valid for
    [e = 2^32] in a buffer of [2^32] bytes; [save(e)] overwrites the whole
    buffer, and the byte at offset 0, outside the range, changes. *)
Lemma save_frame_counterexample :
  let c := General fragment_2_32 Base in
  let e := 4294967296 in
  (0 <= e - size c /\ e <= string_size buffer_2_32)
  /\ exists buf' : list byte,
       save c buffer_2_32 e = Some buf'
       /\ Z.of_nat 0 < e - size c
       /\ buf' !! 0%nat <> buffer_2_32 !! 0%nat.
Proof.
  intros c e. subst c e.
  assert (Hbuf : string_size buffer_2_32 = 4294967296).
  { unfold buffer_2_32, string_size. rewrite length_replicate. lia. }
  rewrite size_fragment_2_32, Hbuf.
  split; [lia|].
  exists fragment_2_32. split; [|split].
  - unfold fragment_2_32, buffer_2_32. apply save_single_replicate. lia.
  - lia.
  - unfold fragment_2_32, buffer_2_32.
    rewrite !lookup_replicate_2 by lia. discriminate.
Qed.

(** C10 (amended): for every chain [C] whose fragments hold at most
    [INT_MAX] bytes in total and every buffer and end iterator [e] with
    [[e - C.size(), e)] inside the buffer, [C.save(e)] succeeds, keeps the
    length of the buffer and leaves every byte outside [[e - C.size(), e)]
    as it was. *)
Theorem save_frame (c : lazy_concatenator) (buf : list byte) (e : Z) :
  sum_lengths c <= INT_MAX ->
  0 <= e - size c -> e <= string_size buf ->
  exists buf' : list byte,
    save c buf e = Some buf'
    /\ length buf' = length buf
    /\ forall i : nat,
         Z.of_nat i < e - size c \/ e <= Z.of_nat i ->
         buf' !! i = buf !! i.
Proof.
  intros Hmax Hlo Hhi.
  assert (Hsize : size c = sum_lengths c).
  { rewrite size_to_int. apply to_int_small.
    pose proof (sum_lengths_nonneg c). unfold INT_MIN. lia. }
  rewrite Hsize in *.
  eexists. split; [apply save_Some; assumption|].
  eapply save_frame_lookup; [exact Hlo|exact Hhi|].
  apply save_Some; assumption.
Qed.

Lemma save_frame_witness :
  let buf := replicate 13 x2e in
  sum_lengths hello_world <= INT_MAX
  /\ 0 <= 12 - size hello_world
  /\ 12 <= string_size buf
  /\ exists buf' : list byte,
       save hello_world buf 12 = Some buf'
       /\ length buf' = length buf
       /\ forall i : nat,
            Z.of_nat i < 12 - size hello_world \/ 12 <= Z.of_nat i ->
            buf' !! i = buf !! i.
Proof.
  intros buf.
  assert (Hmax : sum_lengths hello_world <= INT_MAX)
    by (vm_compute; discriminate).
  assert (Hlo : 0 <= 12 - size hello_world) by (vm_compute; discriminate).
  assert (Hhi : 12 <= string_size buf) by (vm_compute; discriminate).
  split; [exact Hmax|]. split; [exact Hlo|]. split; [exact Hhi|].
  exact (save_frame hello_world buf 12 Hmax Hlo Hhi).
Defined.

(** ** C7: append *)

Lemma tail_at_append_all (gs : list std_string) :
  forall c : lazy_concatenator,
    tail_at (length gs) (append_all c gs) = Some c.
Proof.
  unfold append_all.
  induction gs as [|g gs IH] using rev_ind; intros c.
  - reflexivity.
  - rewrite fold_left_app, length_app, Nat.add_comm. simpl. apply IH.
Qed.

(** C7: for every chain [C] and fragment [f], evaluating [C + f] leaves
    [C] as it was and returns a chain with head [f] and tail [C]; that
    copy of [C] stays in place under any number of further appends to
    [C + f]. *)
Theorem operator_plus_wraps (c : lazy_concatenator) (f : std_string) :
  fst (call_operator_plus c f) = c
  /\ member (snd (call_operator_plus c f)) "m_head" = Some (head_value f)
  /\ member (snd (call_operator_plus c f)) "m_tail" = Some (tail_value c)
  /\ forall gs : list std_string,
       tail_at (S (length gs)) (append_all (operator_plus c f) gs) = Some c.
Proof.
  split; [reflexivity|]. split; [reflexivity|]. split; [reflexivity|].
  intros gs.
  pose proof (tail_at_append_all (f :: gs) c) as H.
  exact H.
Qed.

(** ** C9: repeated size queries *)



(** ** C4: assignment *)

(** The general case of [operator=] names [other.tail], which no chain
    declares. *)
Lemma operator_assign_General (h : std_string) (t other : lazy_concatenator) :
  operator_assign (General h t) other = IllFormed.
Proof.
  unfold operator_assign.
  destruct (negb (shape (General h t) =? shape other)%nat); [reflexivity|].
  destruct other as [|h' t']; reflexivity.
Qed.

(** C4 fails on the code: for the one-fragment chains [A = LAZY + "a"] and
    [B = LAZY + "b"], of one shape, [A = B] is not a well-formed call, so
    no chain [A] results whose conversion could return ["b"], the string
    [B] converts to. *)
Theorem operator_assign_failing_input :
  let A := operator_plus Base (str "a") in
  let B := operator_plus Base (str "b") in
  shape A = shape B
  /\ operator_std_string B = Returned (str "b")
  /\ operator_assign A B = IllFormed.
Proof. repeat split. Qed.

(** ** When [save] is defined *)

Lemma store_length (buf buf' : list byte) (it : Z) (b : byte) :
  store buf it b = Some buf' -> length buf' = length buf.
Proof.
  unfold store. case_bool_decide; [|discriminate].
  intros [= <-]. apply length_insert.
Qed.

Lemma std_copy_length (src : std_string) :
  forall (buf buf' : list byte) (d : Z),
    std_copy src buf d = Some buf' -> length buf' = length buf.
Proof.
  induction src as [|b rest IH]; intros buf buf' d; simpl.
  - now intros [= <-].
  - destruct (store buf d b) as [buf1|] eqn:Hstore; [|discriminate].
    intros Hrest. apply IH in Hrest. apply store_length in Hstore. lia.
Qed.

(** A copy of at least one byte into a range that is not inside the buffer
    has no defined behaviour. *)
Lemma std_copy_None (src : std_string) :
  forall (buf : list byte) (d : Z),
    src <> [] ->
    ~ (0 <= d /\ d + string_size src <= string_size buf) ->
    std_copy src buf d = None.
Proof.
  induction src as [|b rest IH]; intros buf d Hne Hout; [done|].
  simpl. unfold string_size in *. simpl length in Hout.
  destruct (store buf d b) as [buf1|] eqn:Hstore; [|reflexivity].
  pose proof (store_length _ _ _ _ Hstore) as Hlen.
  unfold store in Hstore. case_bool_decide as Hin; [|discriminate].
  unfold string_size in Hin.
  apply IH.
  - intros ->. simpl in Hout. lia.
  - rewrite Hlen. lia.
Qed.

(** A chain whose fragments are all empty writes nothing. *)
Lemma save_nothing (c : lazy_concatenator) :
  forall (buf : list byte) (e : Z),
    sum_lengths c = 0 -> save c buf e = Some buf.
Proof.
  induction c as [|h t IH]; intros buf e Hsum; [reflexivity|].
  simpl in Hsum.
  pose proof (string_size_nonneg h) as Hh.
  pose proof (sum_lengths_nonneg t) as Ht.
  assert (h = []) as ->.
  { destruct h; [reflexivity|]. unfold string_size in *. simpl in *. lia. }
  simpl. apply IH. lia.
Qed.

(** A chain with something to write, saved to a range that is not inside
    the buffer, has no defined behaviour. *)
Lemma save_None (c : lazy_concatenator) :
  forall (buf : list byte) (e : Z),
    sum_lengths c <> 0 ->
    ~ (0 <= e - sum_lengths c /\ e <= string_size buf) ->
    save c buf e = None.
Proof.
  induction c as [|h t IH]; intros buf e Hsum Hout; [done|].
  pose proof (string_size_nonneg h) as Hh.
  pose proof (sum_lengths_nonneg t) as Ht.
  simpl in Hsum, Hout. simpl save.
  destruct (std_copy h buf (e - string_size h)) as [buf1|] eqn:Hcopy;
    [|reflexivity].
  pose proof (std_copy_length _ _ _ _ Hcopy) as Hlen.
  destruct (decide (h = [])) as [->|Hne].
  - unfold string_size in Hsum, Hout |- *. simpl length in *.
    apply IH; unfold string_size; rewrite ?Hlen; lia.
  - destruct (decide (0 <= e - string_size h /\ e <= string_size buf))
      as [Hin|Hin].
    + apply IH; unfold string_size in *; rewrite ?Hlen; lia.
    + rewrite std_copy_None in Hcopy; [discriminate|exact Hne|].
      unfold string_size in *. lia.
Qed.

(** [save] as a function of the total length and the content alone. *)
Lemma save_cases (c : lazy_concatenator) (buf : list byte) (e : Z) :
  save c buf e =
    if decide (sum_lengths c = 0) then Some buf
    else if decide (0 <= e - sum_lengths c /\ e <= string_size buf)
         then Some (take (Z.to_nat (e - sum_lengths c)) buf ++ content c
                      ++ drop (Z.to_nat e) buf)
         else None.
Proof.
  destruct (decide (sum_lengths c = 0)) as [Hz|Hnz].
  - now apply save_nothing.
  - destruct (decide _) as [[Hlo Hhi]|Hout].
    + now apply save_Some.
    + now apply save_None.
Qed.

(** X1: [save] is defined exactly when the chain has nothing to write or
    the range of its total length before the end iterator lies inside the
    buffer. *)
Theorem save_defined_iff (c : lazy_concatenator) (buf : list byte) (e : Z) :
  is_Some (save c buf e) <->
  sum_lengths c = 0 \/ (0 <= e - sum_lengths c /\ e <= string_size buf).
Proof.
  rewrite save_cases.
  destruct (decide (sum_lengths c = 0)) as [Hz|Hnz].
  - split; [now left|]. intros _. now eexists.
  - destruct (decide _) as [Hin|Hout].
    + split; [now right|]. intros _. now eexists.
    + split.
      * intros [x Hx]. discriminate Hx.
      * intros [Hz|Hin]; contradiction.
Qed.

(** ** Outcomes of the conversion *)

Lemma operator_std_string_Undefined (h : std_string) (t : lazy_concatenator) :
  0 <= size (General h t) -> INT_MAX < sum_lengths (General h t) ->
  operator_std_string (General h t) = Undefined.
Proof.
  intros Hnn Hbig. set (c := General h t) in *.
  pose proof (to_int_range (sum_lengths c)) as Hrange.
  rewrite <- size_to_int in Hrange.
  unfold operator_std_string. fold c. cbv zeta.
  rewrite bool_decide_eq_false_2 by lia.
  rewrite save_None; [reflexivity| |].
  - unfold INT_MAX in *. lia.
  - unfold string_size. rewrite length_replicate. lia.
Qed.

(** X2: the conversion of a chain with at least one fragment returns a
    string exactly when the fragments hold at most [INT_MAX] bytes in
    total, and the string it returns is then the content of the chain: it
    never returns anything else. *)
Theorem operator_std_string_Returned_iff
    (h : std_string) (t : lazy_concatenator) (s : std_string) :
  operator_std_string (General h t) = Returned s <->
  sum_lengths (General h t) <= INT_MAX /\ s = content (General h t).
Proof.
  split.
  - intros Hret.
    destruct (decide (sum_lengths (General h t) <= INT_MAX)) as [Hle|Hgt].
    + rewrite operator_std_string_Returned in Hret by exact Hle.
      injection Hret as <-. now split.
    + destruct (decide (size (General h t) < 0)) as [Hneg|Hnn].
      * rewrite operator_std_string_LengthError in Hret by exact Hneg.
        discriminate Hret.
      * rewrite operator_std_string_Undefined in Hret by lia.
        discriminate Hret.
  - intros [Hle ->]. now apply operator_std_string_Returned.
Qed.

(** X3: the two ways the conversion fails.  It throws exactly when
    [size()] is negative, and it writes outside its result exactly when
    [size()] is non-negative although the fragments hold more than
    [INT_MAX] bytes. *)
Theorem operator_std_string_failures (h : std_string) (t : lazy_concatenator) :
  (operator_std_string (General h t) = LengthError
   <-> size (General h t) < 0)
  /\ (operator_std_string (General h t) = Undefined
      <-> 0 <= size (General h t) /\ INT_MAX < sum_lengths (General h t)).
Proof.
  pose proof (operator_std_string_LengthError h t) as HL.
  pose proof (operator_std_string_Undefined h t) as HU.
  pose proof (operator_std_string_Returned h t) as HR.
  destruct (decide (size (General h t) < 0)) as [Hneg|Hnn].
  - rewrite (HL Hneg). split; split; try done. lia.
  - destruct (decide (sum_lengths (General h t) <= INT_MAX)) as [Hle|Hgt].
    + rewrite (HR Hle). split; split; try done; lia.
    + rewrite HU by lia. split; split; try done; lia.
Qed.

(** X4: a string returned by the conversion has exactly [size()] bytes. *)
Theorem operator_std_string_size (c : lazy_concatenator) (s : std_string) :
  operator_std_string c = Returned s -> string_size s = size c.
Proof.
  destruct c as [|h t]; [discriminate|].
  intros Hret.
  assert (Hchar : sum_lengths (General h t) <= INT_MAX
                  /\ s = content (General h t)).
  { destruct (decide (sum_lengths (General h t) <= INT_MAX)) as [Hle|Hgt].
    - rewrite operator_std_string_Returned in Hret by exact Hle.
      injection Hret as <-. now split.
    - destruct (decide (size (General h t) < 0)) as [Hneg|Hnn].
      + rewrite operator_std_string_LengthError in Hret by exact Hneg.
        discriminate Hret.
      + rewrite operator_std_string_Undefined in Hret by lia.
        discriminate Hret. }
  destruct Hchar as [Hle ->].
  rewrite string_size_content, size_to_int, to_int_small; [reflexivity|].
  pose proof (sum_lengths_nonneg (General h t)). unfold INT_MIN. lia.
Qed.

Lemma operator_std_string_size_witness :
  operator_std_string hello_world = Returned (str "Hello World")
  /\ string_size (str "Hello World") = size hello_world.
Proof.
  assert (H : operator_std_string hello_world = Returned (str "Hello World"))
    by (vm_compute; reflexivity).
  split; [exact H|].
  exact (operator_std_string_size hello_world (str "Hello World") H).
Defined.

(** ** Resuming a chain *)

Lemma content_append_all_from (fs : list std_string) (c : lazy_concatenator) :
  content (append_all c fs) = content c ++ concat fs.
Proof.
  unfold content. now rewrite fragments_append_all, concat_app.
Qed.

Lemma sum_lengths_append_all (fs : list std_string) (c : lazy_concatenator) :
  sum_lengths (append_all c fs) = sum_lengths c + string_size (concat fs).
Proof.
  rewrite <- !string_size_content, content_append_all_from.
  apply string_size_app.
Qed.

Lemma append_all_General (fs : list std_string) :
  forall (h : std_string) (t : lazy_concatenator),
    exists h' t', append_all (General h t) fs = General h' t'.
Proof.
  unfold append_all.
  induction fs as [|f fs IH]; intros h t; simpl.
  - now exists h, t.
  - apply IH.
Qed.

(** X5: when a chain with at least one fragment is extended by further
    fragments [g1, ..., gk] and the whole holds at most [INT_MAX] bytes,
    the chain converts to a string [s] and the extended chain converts to
    [s ++ g1 ++ ... ++ gk]: a concatenation can be resumed from any chain. *)
Theorem operator_std_string_resume
    (h : std_string) (t : lazy_concatenator) (gs : list std_string) :
  sum_lengths (General h t) + string_size (concat gs) <= INT_MAX ->
  exists s : std_string,
    operator_std_string (General h t) = Returned s
    /\ operator_std_string (append_all (General h t) gs)
       = Returned (s ++ concat gs).
Proof.
  intros Hmax.
  pose proof (string_size_nonneg (concat gs)) as Hgs.
  exists (content (General h t)). split.
  - apply operator_std_string_Returned. lia.
  - destruct (append_all_General gs h t) as (h' & t' & Heq).
    pose proof (content_append_all_from gs (General h t)) as Hcont.
    pose proof (sum_lengths_append_all gs (General h t)) as Hsum.
    rewrite Heq in *.
    rewrite operator_std_string_Returned by lia.
    now rewrite Hcont.
Qed.

Lemma operator_std_string_resume_witness :
  sum_lengths hello_world + string_size (concat [str "!"; str "?"]) <= INT_MAX
  /\ exists s : std_string,
       operator_std_string hello_world = Returned s
       /\ operator_std_string (append_all hello_world [str "!"; str "?"])
          = Returned (s ++ concat [str "!"; str "?"]).
Proof.
  assert (H : sum_lengths hello_world
              + string_size (concat [str "!"; str "?"]) <= INT_MAX)
    by (vm_compute; discriminate).
  split; [exact H|].
  exact (operator_std_string_resume (str "World")
           (General (str " ") (General (str "Hello") Base))
           [str "!"; str "?"] H).
Defined.

(** X6: [size()] after any number of appends is the [int] conversion of
    the earlier [size()] plus the bytes appended, whatever the lengths, and
    so always lies between [INT_MIN] and [INT_MAX]. *)
Theorem size_append_all (c : lazy_concatenator) (fs : list std_string) :
  size (append_all c fs) = to_int (size c + string_size (concat fs))
  /\ INT_MIN <= size (append_all c fs) <= INT_MAX.
Proof.
  split.
  - rewrite !size_to_int, sum_lengths_append_all.
    rewrite (Z.add_comm (to_int _)), to_int_add_to_int.
    f_equal. lia.
  - rewrite size_to_int. apply to_int_range.
Qed.

(** ** Shapes *)

(** X7: every append adds one level to the type of the chain: after [k]
    appends the shape has grown by [k], so the result of one or more
    appends is never a chain of the type it started from. *)
Theorem shape_append_all (c : lazy_concatenator) (fs : list std_string) :
  shape (append_all c fs) = (shape c + length fs)%nat
  /\ (fs <> [] -> shape (append_all c fs) <> shape c).
Proof.
  assert (Hshape : forall c', shape (append_all c' fs)
                              = (shape c' + length fs)%nat).
  { unfold append_all. induction fs as [|f fs IH]; intros c'; simpl.
    - lia.
    - rewrite IH. simpl. lia. }
  split; [apply Hshape|].
  intros Hne. rewrite Hshape.
  destruct fs; [done|]. simpl. lia.
Qed.

Lemma shape_append_all_witness :
  [str "Hello"; str "to"] <> []
  /\ shape (append_all Base [str "Hello"; str "to"]) <> shape Base.
Proof.
  assert (H : [str "Hello"; str "to"] <> []) by discriminate.
  split; [exact H|].
  exact (proj2 (shape_append_all Base [str "Hello"; str "to"]) H).
Defined.

(** ** More on [save] *)

(** X8: whenever [save] is defined it keeps the length of the buffer, and
    saving the same chain again at the same end iterator changes nothing
    more. *)
Theorem save_again (c : lazy_concatenator) (buf buf' : list byte) (e : Z) :
  save c buf e = Some buf' ->
  length buf' = length buf /\ save c buf' e = Some buf'.
Proof.
  rewrite save_cases.
  destruct (decide (sum_lengths c = 0)) as [Hz|Hnz].
  - intros [= <-]. split; [reflexivity|]. now apply save_nothing.
  - destruct (decide _) as [[Hlo Hhi]|Hout]; [|discriminate].
    intros [= <-].
    pose proof (sum_lengths_nonneg c) as Hc.
    pose proof (string_size_content c) as Hcont.
    unfold string_size in *.
    assert (Hlen : length (take (Z.to_nat (e - sum_lengths c)) buf)
                   = Z.to_nat (e - sum_lengths c)).
    { apply length_take_le. lia. }
    assert (Hall : length (take (Z.to_nat (e - sum_lengths c)) buf
                             ++ content c ++ drop (Z.to_nat e) buf)
                   = length buf).
    { rewrite !length_app, Hlen, length_drop. lia. }
    split; [exact Hall|].
    rewrite save_Some; [|lia|unfold string_size; rewrite Hall; lia].
    f_equal.
    rewrite take_app_length' by (symmetry; exact Hlen).
    f_equal. f_equal.
    rewrite app_assoc.
    apply drop_app_length'.
    rewrite length_app, Hlen. lia.
Qed.

Lemma save_again_witness :
  let buf := replicate 13 x2e in
  save hello_world buf 12 = Some (str ".Hello World.")
  /\ length (str ".Hello World.") = length buf
  /\ save hello_world (str ".Hello World.") 12 = Some (str ".Hello World.").
Proof.
  intros buf.
  assert (H : save hello_world buf 12 = Some (str ".Hello World."))
    by (vm_compute; reflexivity).
  split; [exact H|].
  exact (save_again hello_world buf (str ".Hello World.") 12 H).
Defined.

(** ** Chains with the same content *)

(** X9: [size()], [save] and the conversion depend on the bytes of the
    chain only, not on how they are cut into fragments: two chains with
    the same content report the same size and fill every buffer alike,
    and, when both have at least one fragment, convert alike. *)
Theorem same_content (c1 c2 : lazy_concatenator) :
  content c1 = content c2 ->
  size c1 = size c2
  /\ (forall (buf : list byte) (e : Z), save c1 buf e = save c2 buf e)
  /\ (c1 <> Base -> c2 <> Base ->
      operator_std_string c1 = operator_std_string c2).
Proof.
  intros Hcont.
  assert (Hsum : sum_lengths c1 = sum_lengths c2).
  { now rewrite <- !string_size_content, Hcont. }
  assert (Hsize : size c1 = size c2).
  { now rewrite !size_to_int, Hsum. }
  assert (Hsave : forall buf e, save c1 buf e = save c2 buf e).
  { intros buf e. now rewrite !save_cases, Hsum, Hcont. }
  split; [exact Hsize|]. split; [exact Hsave|].
  intros H1 H2.
  destruct c1 as [|h1 t1]; [done|]. destruct c2 as [|h2 t2]; [done|].
  unfold operator_std_string. cbv zeta.
  now rewrite Hsize, Hsave.
Qed.

Lemma same_content_witness :
  let c1 := append_all Base [str "ab"; []; str "c"] in
  let c2 := append_all Base [str "a"; str "bc"] in
  content c1 = content c2
  /\ size c1 = size c2
  /\ (forall (buf : list byte) (e : Z), save c1 buf e = save c2 buf e)
  /\ (c1 <> Base -> c2 <> Base ->
      operator_std_string c1 = operator_std_string c2).
Proof.
  intros c1 c2.
  assert (H : content c1 = content c2) by (vm_compute; reflexivity).
  split; [exact H|].
  exact (same_content c1 c2 H).
Defined.

End LazyConcat.
